(** * Verification of the breakout trading loop of [src/mvp.py]

    Bar prices and quantities that the Python code holds as floats are
    modelled as exact rationals [Q] (the exact value of each float); the
    bracket legs, whose computation the code ends with [round(..., 2)], are
    computed in IEEE 754 binary64 as Python does.  The broker, the asset
    list and the market-data service are oracles that see the history of
    the process (its trace of observable events) and answer with a result
    or an exception. *)

From Stdlib Require Import String List ZArith QArith Qround Lqa Lia Bool Sorted Permutation.
From Stdlib Require Import SpecFloat.
Import ListNotations.

Open Scope Z_scope.

(** ** Configuration (lines 16-24) *)

Definition SYMBOLS : list string := ["AAPL"%string; "MSFT"%string].
Definition LOOKBACK : nat := 20.
Definition DOLLAR_RISK : Q := 100.
Definition TP_PCT : Q := 4 # 1000.
Definition SL_PCT : Q := 3 # 1000.
Definition POLL_SEC : Z := 30.

(** ** Data model *)

(** One row of the bar data frame. *)
Record Bar := mkBar {
  bar_timestamp : Z;
  bar_open : Q;
  bar_high : Q;
  bar_low : Q;
  bar_close : Q;
  bar_volume : Q
}.

(** A per-symbol frame [bars.xs(sym)]: its rows in frame order. *)
Definition Frame := list Bar.

(** ** Series helpers (pandas semantics on a non-NaN float series) *)

(** [Series.max()]: [None] stands for the NaN pandas returns on an empty
    series. *)
Fixpoint series_max (l : list Q) : option Q :=
  match l with
  | [] => None
  | x :: rest =>
      match series_max rest with
      | None => Some x
      | Some m => Some (if Qle_bool x m then m else x)
      end
  end.

(** [a > b] on floats; a comparison with NaN is false. *)
Definition py_gt (a : Q) (b : option Q) : bool :=
  match b with
  | None => false
  | Some m => negb (Qle_bool a m)
  end.

(** [s.iloc[-a:-b]] for [a >= b]: Python slice with negative bounds, each
    clamped at 0. *)
Definition iloc_neg_slice {A} (a b : nat) (l : list A) : list A :=
  let n := length l in
  let start := (n - a)%nat in
  let stop := (n - b)%nat in
  firstn (stop - start) (skipn start l).

(** ** [calc_signal] (lines 54-61), with the window length as argument;
    the program uses it at [LOOKBACK]. *)
Definition calc_signal_with (lookback : nat) (df : Frame) : bool :=
  if (length df <? lookback + 1)%nat then false
  else
    let close := map bar_close df in
    let rolling_max := series_max (iloc_neg_slice (lookback + 1) 1 close) in
    (* df["close"].iloc[-1] > rolling_max *)
    py_gt (last close 0%Q) rolling_max.

Definition calc_signal (df : Frame) : bool := calc_signal_with LOOKBACK df.

(** ** [round_qty] (lines 63-67): [int(dollars // price)] clamped at 0. *)
Definition round_qty (price dollars : Q) : Z :=
  if Qle_bool price 0 then 0
  else
    let qty := Qfloor (dollars / price) in
    Z.max qty 0.

(** ** Python's [round(x, 2)] on an exact value: round half to even at
    two decimals. *)
Definition round_half_even (r : Q) : Z :=
  let f := Qfloor r in
  let frac := (r - inject_Z f)%Q in
  if Qeq_bool frac (1 # 2) then (if Z.even f then f else f + 1)
  else if Qle_bool frac (1 # 2) then f else f + 1.

Definition round2 (x : Q) : Q := (inject_Z (round_half_even (x * 100)) / 100)%Q.

(** ** Python floats: IEEE 754 binary64, round to nearest even *)

Definition float64 := spec_float.
Definition prec64 : Z := 53.
Definition emax64 : Z := 1024.

(** The double nearest to a rational, ties to even: the value of a float
    literal such as [0.004], of [float(int)], and of the result of
    [round(x, 2)], which CPython builds from the decimal digits. *)
Definition Q2F (q : Q) : float64 :=
  match Qnum q with
  | Z0 => S754_zero false
  | Zpos n =>
      let '(mz, ez, lz) := SFdiv_core_binary prec64 emax64 (Zpos n) 0 (Zpos (Qden q)) 0 in
      binary_round_aux prec64 emax64 false mz ez lz
  | Zneg n =>
      let '(mz, ez, lz) := SFdiv_core_binary prec64 emax64 (Zpos n) 0 (Zpos (Qden q)) 0 in
      binary_round_aux prec64 emax64 true mz ez lz
  end.

(** The exact value of a finite double (0 for infinities and NaN). *)
Definition F2Q (x : float64) : Q :=
  match x with
  | S754_finite sx m e =>
      let v := if sx then Zneg m else Zpos m in
      match e with
      | Z0 => inject_Z v
      | Zpos p => inject_Z (v * Z.pow_pos 2 p)
      | Zneg p => Qmake v (Pos.pow 2 p)
      end
  | _ => 0%Q
  end.

Definition py_add (x y : float64) : float64 := SFadd prec64 emax64 x y.
Definition py_sub (x y : float64) : float64 := SFsub prec64 emax64 x y.
Definition py_mul (x y : float64) : float64 := SFmul prec64 emax64 x y.

(** [round(x, 2)] on a float (CPython's [double_round]): the exact binary
    value is rounded half to even at two decimals and the decimal result is
    read back as a double; a zero result keeps the sign of [x]; infinities
    and NaN are returned unchanged. *)
Definition py_round2 (x : float64) : float64 :=
  match x with
  | S754_finite sx _ _ =>
      let z := round_half_even (F2Q x * 100) in
      if Z.eqb z 0 then S754_zero sx else Q2F (round2 (F2Q x))
  | _ => x
  end.

(** ** Broker and data-service records *)

Record Position := mkPosition { p_symbol : string; p_qty : Q }.
Record Asset := mkAsset { a_symbol : string; a_tradable : bool }.

Inductive OrderSide := BUY | SELL.
Inductive TimeInForce := DAY | GTC.
Inductive OrderClass := SIMPLE | BRACKET.

Record TakeProfitRequest := mkTakeProfit { limit_price : float64 }.
Record StopLossRequest := mkStopLoss { stop_price : float64 }.

Record MarketOrderRequest := mkMarketOrder {
  o_symbol : string;
  o_qty : Z;
  o_side : OrderSide;
  o_time_in_force : TimeInForce;
  o_order_class : OrderClass;
  o_take_profit : TakeProfitRequest;
  o_stop_loss : StopLossRequest
}.

Record OrderResp := mkOrderResp { resp_id : string; resp_status : string }.

(** Exceptions: [KeyboardInterrupt] (a [BaseException]) and everything
    derived from [Exception]. *)
Inductive Exc := KeyboardInterrupt | PyException (msg : string).

(** The console messages of [main]. *)
Inductive LogMsg :=
| LNoTradable
| LStarting
| LNoBars
| LAlreadyOpen (sym : string)
| LQtyZero (sym : string) (price : Q)
| LBreakout (sym : string) (qty : Z) (price : Q)
| LOrder (id status : string)
| LNoSignal (sym : string) (price : Q)
| LExiting
| LError (msg : string).

(** Observable events, in chronological order. *)
Inductive Event :=
| EAssets (assets : list Asset)
| EFetch (syms : list string) (rows : list (string * Bar))
| EPositions (ps : list Position)
| ESubmit (o : MarketOrderRequest)
| EPrint (m : LogMsg)
| ESleep (secs : Z).

Definition Trace := list Event.

(** ** An exception monad over the trace *)

Definition M (A : Type) := Trace -> (Exc + A) * Trace.

Definition ret {A} (a : A) : M A := fun s => (inr a, s).
Definition raise {A} (e : Exc) : M A := fun s => (inl e, s).
Definition bind {A B} (m : M A) (f : A -> M B) : M B :=
  fun s => match m s with
           | (inl e, s') => (inl e, s')
           | (inr a, s') => f a s'
           end.

Notation "x <- m ;; k" := (bind m (fun x => k))
  (at level 61, m at next level, right associativity).
Notation "m ;;; k" := (bind m (fun _ => k))
  (at level 61, right associativity).

Definition emit (e : Event) : M unit := fun s => (inr tt, s ++ [e]).
Definition print (m : LogMsg) : M unit := emit (EPrint m).
Definition sleep (secs : Z) : M unit := emit (ESleep secs).

Fixpoint for_each {A} (f : A -> M unit) (l : list A) : M unit :=
  match l with
  | [] => ret tt
  | x :: rest => f x ;;; for_each f rest
  end.

(** ** Python dicts as association lists in insertion order *)

Fixpoint dict_set {V} (k : string) (v : V) (d : list (string * V)) :
  list (string * V) :=
  match d with
  | [] => [(k, v)]
  | (k', v') :: r => if String.eqb k' k then (k, v) :: r else (k', v') :: dict_set k v r
  end.

Fixpoint dict_get {V} (k : string) (d : list (string * V)) (default : V) : V :=
  match d with
  | [] => default
  | (k', v') :: r => if String.eqb k' k then v' else dict_get k r default
  end.

(** Python's [sorted] on strings (insertion sort). *)
Fixpoint insert_sorted (x : string) (l : list string) : list string :=
  match l with
  | [] => [x]
  | y :: r => if String.ltb y x then y :: insert_sorted x r else x :: l
  end.

Definition sorted_strings (l : list string) : list string :=
  fold_right insert_sorted [] l.

(** [set.add] on a set kept as a duplicate-free list. *)
Definition set_add (x : string) (l : list string) : list string :=
  if existsb (String.eqb x) l then l else l ++ [x].

(** ** Reshaping the batched bar frame (lines 43-52)

    The batched frame is its list of rows, each with its symbol (index
    level 0).  [bars.xs(sym)] keeps the rows of [sym] in frame order. *)

(** The Python values compared by the [in] test of line 49: the labels of
    index level 0 are strings, the key [(sym,)] is a 1-tuple. *)
#[warnings="-register-all"]
Inductive PyVal := PyStr (s : string) | PyTuple (items : list PyVal).

(** Python [==] on these values: a string never equals a tuple. *)
Fixpoint py_eq (a b : PyVal) {struct a} : bool :=
  match a, b with
  | PyStr x, PyStr y => String.eqb x y
  | PyTuple xs, PyTuple ys =>
      (fix go (xs ys : list PyVal) : bool :=
         match xs, ys with
         | [], [] => true
         | x :: xs', y :: ys' => py_eq x y && go xs' ys'
         | _, _ => false
         end) xs ys
  | _, _ => false
  end.

(** [bars.index.get_level_values(0)]: the symbol label of every row. *)
Definition level_values0 (rows : list (string * Bar)) : list PyVal :=
  map (fun r => PyStr (fst r)) rows.

(** [x in index]: some label equals [x]. *)
Definition py_in (x : PyVal) (index : list PyVal) : bool := existsb (py_eq x) index.

(** [(sym,) in bars.index.get_level_values(0)] (line 49). *)
Definition level0_contains (rows : list (string * Bar)) (sym : string) : bool :=
  py_in (PyTuple [PyStr sym]) (level_values0 rows).

Definition xs (sym : string) (rows : list (string * Bar)) : Frame :=
  map snd (filter (fun r => String.eqb (fst r) sym) rows).

Definition reshape (symbols : list string) (rows : list (string * Bar)) :
  option (list (string * Frame)) :=
  match rows with
  | [] => None                                   (* bars.empty *)
  | _ =>
      Some (fold_left
              (fun latest sym =>
                 if level0_contains rows sym then dict_set sym (xs sym rows) latest
                 else latest)
              symbols [])
  end.

(** ** The program, over the broker and data-service oracles *)

Section Program.

(** [trading.get_all_assets(...)], [data_client.get_stock_bars(req).df]
    (its rows), [trading.get_all_positions()] and [trading.submit_order]:
    each answer may depend on everything that happened before. *)
Variable get_all_assets : Trace -> Exc + list Asset.
Variable get_stock_bars : Trace -> list string -> nat -> Exc + list (string * Bar).
Variable get_all_positions : Trace -> Exc + list Position.
Variable submit_order : Trace -> MarketOrderRequest -> Exc + OrderResp.

Definition call_assets : M (list Asset) := fun s =>
  match get_all_assets s with
  | inl e => (inl e, s)
  | inr a => (inr a, s ++ [EAssets a])
  end.

Definition call_bars (syms : list string) (limit : nat) : M (list (string * Bar)) :=
  fun s =>
    match get_stock_bars s syms limit with
    | inl e => (inl e, s)
    | inr rows => (inr rows, s ++ [EFetch syms rows])
    end.

Definition call_positions : M (list Position) := fun s =>
  match get_all_positions s with
  | inl e => (inl e, s)
  | inr ps => (inr ps, s ++ [EPositions ps])
  end.

(** The order is sent (and recorded) before the broker answers. *)
Definition call_submit (o : MarketOrderRequest) : M OrderResp := fun s =>
  let s' := s ++ [ESubmit o] in
  match submit_order s o with
  | inl e => (inl e, s')
  | inr r => (inr r, s')
  end.

(** [get_latest_bars] (lines 37-52). *)
Definition get_latest_bars (symbols : list string) (limit : nat) :
  M (option (list (string * Frame))) :=
  rows <- call_bars symbols limit ;;
  ret (reshape symbols rows).

(** [already_open] (lines 69-71). *)
Definition already_open (sym : string) : M bool :=
  positions <- call_positions ;;
  ret (existsb (fun p => String.eqb (p_symbol p) sym) positions).

(** The bracket order built by [place_bracket_market] (lines 77-88).
    [price] is the reference close, [Q2F price] the float the code holds
    for it; [1 + TP_PCT], [1 - SL_PCT] and the products are float
    operations, each rounded to the nearest double. *)
Definition bracket_order (sym : string) (qty : Z) (price : Q) : MarketOrderRequest :=
  let p := Q2F price in
  let take_profit := mkTakeProfit (py_round2 (py_mul p (py_add (Q2F 1) (Q2F TP_PCT)))) in
  let stop_loss := mkStopLoss (py_round2 (py_mul p (py_sub (Q2F 1) (Q2F SL_PCT)))) in
  mkMarketOrder sym qty BUY DAY BRACKET take_profit stop_loss.

(** [place_bracket_market] (lines 73-90). *)
Definition place_bracket_market (sym : string) (qty : Z) (price : Q) : M OrderResp :=
  call_submit (bracket_order sym qty price).

(** [ensure_tradable] (lines 92-99). *)
Definition ensure_tradable (symbols : list string) : M (list string) :=
  assets <- call_assets ;;
  let tradable_map :=
    fold_left (fun m a => dict_set (a_symbol a) (a_tradable a) m) assets [] in
  let tradables :=
    fold_left (fun acc s => if dict_get s tradable_map false then set_add s acc else acc)
              symbols [] in
  ret (sorted_strings tradables).

(** [float(df["close"].iloc[-1])]: an [IndexError] on an empty frame. *)
Definition last_close (df : Frame) : M Q :=
  match df with
  | [] => raise (PyException "IndexError: single positional indexer is out-of-bounds")
  | _ => ret (last (map bar_close df) 0%Q)
  end.

(** The body of [for sym, df in bars_map.items()] (lines 117-132). *)
Definition process_symbol (entry : string * Frame) : M unit :=
  let (sym, df) := entry in
  last_price <- last_close df ;;
  opn <- already_open sym ;;
  if opn then print (LAlreadyOpen sym)
  else
    let signal := calc_signal df in
    if signal then
      let qty := round_qty last_price (DOLLAR_RISK / SL_PCT) in
      if qty <=? 0 then print (LQtyZero sym last_price)
      else
        print (LBreakout sym qty last_price) ;;;
        resp <- place_bracket_market sym qty last_price ;;
        print (LOrder (resp_id resp) (resp_status resp))
    else print (LNoSignal sym last_price).

(** The body of the [try] block (lines 110-134). *)
Definition cycle_body (tradable_syms : list string) : M unit :=
  bars_map <- get_latest_bars tradable_syms (LOOKBACK + 1) ;;
  match bars_map with
  | None | Some [] => print LNoBars ;;; sleep POLL_SEC
  | Some m => for_each process_symbol m ;;; sleep POLL_SEC
  end.

(** One iteration of [while True] with its handlers (lines 109-141);
    the result is [true] when the loop breaks.  [time.sleep] is modelled
    as always returning: an operator interrupt that arrives during a sleep
    (in particular the one of the [except Exception] handler, line 141,
    which is outside the [try]) is not modelled. *)
Definition loop_iteration (tradable_syms : list string) : M bool := fun s =>
  match cycle_body tradable_syms s with
  | (inr _, s') => (inr false, s')
  | (inl KeyboardInterrupt, s') => (inr true, s' ++ [EPrint LExiting])
  | (inl (PyException e), s') =>
      (inr false, s' ++ [EPrint (LError e); ESleep POLL_SEC])
  end.

Inductive LoopEnd := Stopped | StillRunning.

(** [while True], run for at most [fuel] iterations. *)
Fixpoint main_loop (tradable_syms : list string) (fuel : nat) : M LoopEnd :=
  match fuel with
  | O => ret StillRunning
  | S n =>
      brk <- loop_iteration tradable_syms ;;
      if brk then ret Stopped else main_loop tradable_syms n
  end.

Inductive MainEnd := NoTradable | LoopExit (e : LoopEnd).

(** [main] (lines 101-141). *)
Definition main (fuel : nat) : M MainEnd :=
  tradable_syms <- ensure_tradable SYMBOLS ;;
  match tradable_syms with
  | [] => print LNoTradable ;;; ret NoTradable
  | _ =>
      print LStarting ;;;
      r <- main_loop tradable_syms fuel ;;
      ret (LoopExit r)
  end.

End Program.

(** ** Sample frames *)

Definition bar_at (t : Z) (c : Q) : Bar := mkBar t c c c c 1.

Fixpoint bars_from (t : Z) (closes : list Q) : Frame :=
  match closes with
  | [] => []
  | c :: r => bar_at t c :: bars_from (t + 60) r
  end.

(** ** Predicates on traces used by the statements *)

Definition position_reported (sym : string) (ps : list Position) : Prop :=
  exists p, In p ps /\ p_symbol p = sym.

(** The positions returned by the latest query in a trace. *)
Definition lq_step (acc : option (list Position)) (e : Event) : option (list Position) :=
  match e with EPositions ps => Some ps | _ => acc end.

Definition last_query (t : Trace) : option (list Position) := fold_left lq_step t None.

Definition is_submit_of (sym : string) (e : Event) : bool :=
  match e with ESubmit o => String.eqb (o_symbol o) sym | _ => false end.

Definition count_submits (sym : string) (t : Trace) : nat :=
  length (filter (is_submit_of sym) t).

Definition is_positions (e : Event) : bool :=
  match e with EPositions _ => true | _ => false end.

(** A price with at most two decimals. *)
Definition two_decimals (q : Q) : Prop := exists z : Z, q == (inject_Z z / 100)%Q.

(** [y] is [x] rounded to cents: for a finite [x], [y] is the double of
    some two-decimal number [z / 100] (a zero keeping the sign of [x]) at
    most half a cent away from the exact value of [x]; otherwise [y] is
    [x]. *)
Definition cents_of (x y : float64) : Prop :=
  match x with
  | S754_finite sx _ _ =>
      exists z : Z,
        (y = Q2F (inject_Z z / 100) \/ (z = 0 /\ y = S754_zero sx)) /\
        (- (1 # 200) <= inject_Z z / 100 - F2Q x <= 1 # 200)%Q
  | _ => y = x
  end.

(** [gated lq t]: every order in [t] is preceded by a position query
    (the latest one so far, starting from [lq]) that did not report its
    symbol. *)
Fixpoint gated (lq : option (list Position)) (t : Trace) : Prop :=
  match t with
  | [] => True
  | EPositions ps :: r => gated (Some ps) r
  | ESubmit o :: r =>
      (exists ps, lq = Some ps /\ ~ position_reported (o_symbol o) ps) /\ gated lq r
  | _ :: r => gated lq r
  end.

(** Whether an event shows that the loop handled [sym]: one of its
    per-symbol messages or an order for it. *)
Definition mentions_symbol (sym : string) (e : Event) : bool :=
  match e with
  | EPrint (LAlreadyOpen x) | EPrint (LQtyZero x _) | EPrint (LBreakout x _ _)
  | EPrint (LNoSignal x _) => String.eqb x sym
  | ESubmit o => String.eqb (o_symbol o) sym
  | _ => false
  end.

Definition processed (sym : string) (t : Trace) : bool := existsb (mentions_symbol sym) t.

(** An event that is neither a position query nor an order. *)
Definition quiet (e : Event) : bool :=
  match e with EPositions _ | ESubmit _ => false | _ => true end.

(** An action never raises [KeyboardInterrupt]. *)
Definition no_interrupt {A} (m : M A) : Prop :=
  forall s, fst (m s) <> inl KeyboardInterrupt.

(** A batch where AAPL breaks out and MSFT does not, a broker with no open
    position that rejects every order. *)
Definition cx_rows : list (string * Bar) :=
  map (pair "AAPL"%string) (bars_from 0 (repeat 10%Q 20 ++ [11%Q])) ++
  map (pair "MSFT"%string) (bars_from 0 (repeat 10%Q 21)).

Definition cx_bars (_ : Trace) (_ : list string) (_ : nat) : Exc + list (string * Bar) :=
  inr cx_rows.

Definition cx_positions (_ : Trace) : Exc + list Position := inr [].

Definition cx_submit (_ : Trace) (_ : MarketOrderRequest) : Exc + OrderResp :=
  inl (PyException "insufficient buying power").

Definition cx_syms : list string := ["AAPL"%string; "MSFT"%string].

Definition cx_map : list (string * Frame) :=
  [("AAPL"%string, xs "AAPL" cx_rows); ("MSFT"%string, xs "MSFT" cx_rows)].

(** A data service that always fails. *)
Definition cx_flaky_bars (_ : Trace) (_ : list string) (_ : nat) : Exc + list (string * Bar) :=
  inl (PyException "connection reset").

(** ** Scenario checks (spec section 8) *)

Example scenario1 : calc_signal_with 3 (bars_from 0 [10; 11; 9; 12]%Q) = true.
Proof. reflexivity. Qed.

Example scenario2 : calc_signal_with 3 (bars_from 0 [10; 11; 9; 11]%Q) = false.
Proof. reflexivity. Qed.

Example scenario3 : round_qty 50 (DOLLAR_RISK / SL_PCT) = 666.
Proof. reflexivity. Qed.

Example round2_sample : round2 (100 * (1 + TP_PCT)) == (10040 # 100)%Q.
Proof. reflexivity. Qed.

(** The float literals of the configuration. *)
Example float_literals :
  Q2F TP_PCT = S754_finite false 4611686018427388 (-60) /\
  Q2F SL_PCT = S754_finite false 6917529027641082 (-61) /\
  py_add (Q2F 1) (Q2F TP_PCT) = S754_finite false 4521614025879978 (-52).
Proof. vm_compute. repeat split. Qed.

(** Legs where floats and exact arithmetic part: [1.25 * 1.004] is the
    double just below [1.255], which rounds to 1.25; [5.0 * 0.997] is the
    double just above [4.985], which rounds to 4.99. *)
Example bracket_legs_1_25 :
  limit_price (o_take_profit (bracket_order "AAPL" 1 (125 # 100))) = Q2F (125 # 100).
Proof. vm_compute. reflexivity. Qed.

Example bracket_legs_5_00 :
  stop_price (o_stop_loss (bracket_order "AAPL" 1 5)) = Q2F (499 # 100).
Proof. vm_compute. reflexivity. Qed.

(** ** Lemmas on the pure functions *)

Lemma series_max_spec (l : list Q) (m : Q) :
  series_max l = Some m -> In m l /\ (forall x, In x l -> (x <= m)%Q).
Proof.
  revert m; induction l as [|a l IH]; intros m H; [discriminate|].
  cbn in H. destruct (series_max l) as [m'|] eqn:Hl.
  - destruct (IH m' eq_refl) as [Hin Hle].
    destruct (Qle_bool a m') eqn:Hb; injection H as <-.
    + apply Qle_bool_iff in Hb. split; [right; exact Hin|].
      intros x [<-|Hx]; auto.
    + assert (Hlt : (m' < a)%Q).
      { apply Qnot_le_lt. intro Hc. apply Qle_bool_iff in Hc. congruence. }
      split; [left; reflexivity|].
      intros x [<-|Hx]; [apply Qle_refl|].
      apply Qle_trans with m'; [auto | apply Qlt_le_weak; exact Hlt].
  - destruct l; [|cbn in Hl; destruct (series_max l); discriminate].
    injection H as <-. split; [left; reflexivity|].
    intros x [<-|[]]; apply Qle_refl.
Qed.

Lemma iloc_neg_slice_window {A} (pre prior : list A) (x : A) :
  iloc_neg_slice (length prior + 1) 1 (pre ++ prior ++ [x]) = prior.
Proof.
  unfold iloc_neg_slice. rewrite !length_app. cbn [length].
  replace (length pre + (length prior + 1) - (length prior + 1))%nat with (length pre) by lia.
  replace (length pre + (length prior + 1) - 1 - length pre)%nat with (length prior) by lia.
  rewrite skipn_app, skipn_all, Nat.sub_diag. cbn [skipn app].
  rewrite firstn_app, firstn_all, Nat.sub_diag. cbn. apply app_nil_r.
Qed.

Lemma round_half_even_close (r : Q) :
  (- (1 # 2) <= inject_Z (round_half_even r) - r <= 1 # 2)%Q.
Proof.
  unfold round_half_even.
  pose proof (Qfloor_le r) as H1. pose proof (Qlt_floor r) as H2.
  rewrite inject_Z_plus in H2. change (inject_Z 1) with 1%Q in H2.
  set (f := Qfloor r) in *.
  destruct (Qeq_bool (r - inject_Z f) (1 # 2)) eqn:He.
  - apply Qeq_bool_iff in He.
    destruct (Z.even f); [|rewrite inject_Z_plus; change (inject_Z 1) with 1%Q]; lra.
  - destruct (Qle_bool (r - inject_Z f) (1 # 2)) eqn:Hl.
    + apply Qle_bool_iff in Hl. lra.
    + rewrite inject_Z_plus. change (inject_Z 1) with 1%Q.
      assert (Hlt : (1 # 2 < r - inject_Z f)%Q).
      { apply Qnot_le_lt. intro Hc. apply Qle_bool_iff in Hc. congruence. }
      lra.
Qed.

Lemma round2_spec (x : Q) :
  two_decimals (round2 x) /\ (- (1 # 200) <= round2 x - x <= 1 # 200)%Q.
Proof.
  unfold round2. split; [eexists; reflexivity|].
  pose proof (round_half_even_close (x * 100)) as H.
  set (z := inject_Z (round_half_even (x * 100))) in *.
  assert (E : (z / 100 - x == (z - x * 100) * (1 # 100))%Q) by (unfold Qdiv; change (/ 100)%Q with (1 # 100)%Q; ring).
  rewrite E. lra.
Qed.

Lemma py_round2_cents (x : float64) : cents_of x (py_round2 x).
Proof.
  destruct x as [sx|sx| |sx m e]; try reflexivity.
  unfold py_round2, cents_of.
  set (v := F2Q (S754_finite sx m e)).
  exists (round_half_even (v * 100)). split.
  - destruct (Z.eqb (round_half_even (v * 100)) 0) eqn:Ez; [right|left; reflexivity].
    split; [apply Z.eqb_eq, Ez | reflexivity].
  - exact (proj2 (round2_spec v)).
Qed.

(** ** Signal evaluation *)

(** C2: on a history of at least [lookback + 1] bars, written as
    [pre ++ prior ++ [latest]] with [prior] the [lookback] bars right before
    the latest one, the signal is true exactly when the latest close is
    strictly above every close of [prior], that is above their maximum; when
    the latest close equals that maximum the signal is false. *)
Theorem calc_signal_breakout (lookback : nat) (pre prior : Frame) (latest : Bar) :
  (1 <= lookback)%nat -> length prior = lookback ->
  (calc_signal_with lookback (pre ++ prior ++ [latest]) = true <->
   Forall (fun b => (bar_close b < bar_close latest)%Q) prior) /\
  (forall m, series_max (map bar_close prior) = Some m ->
   (calc_signal_with lookback (pre ++ prior ++ [latest]) = true <->
    (m < bar_close latest)%Q) /\
   (m == bar_close latest -> calc_signal_with lookback (pre ++ prior ++ [latest]) = false))%Q.
Proof.
  intros Hlb Hlen.
  assert (Hsig : calc_signal_with lookback (pre ++ prior ++ [latest]) =
                 py_gt (bar_close latest) (series_max (map bar_close prior))).
  { unfold calc_signal_with.
    replace (length (pre ++ prior ++ [latest]) <? lookback + 1)%nat with false
      by (symmetry; apply Nat.ltb_ge; rewrite !length_app; cbn; lia).
    rewrite !map_app. cbn [map].
    rewrite <- Hlen, <- (length_map bar_close prior), iloc_neg_slice_window.
    rewrite app_assoc, last_last. reflexivity. }
  assert (Hgt : forall m, series_max (map bar_close prior) = Some m ->
            (calc_signal_with lookback (pre ++ prior ++ [latest]) = true <->
             (m < bar_close latest)%Q)).
  { intros m Hm. rewrite Hsig, Hm. cbn. rewrite negb_true_iff. split; intro H.
    - apply Qnot_le_lt. intro Hc. apply Qle_bool_iff in Hc. congruence.
    - destruct (Qle_bool (bar_close latest) m) eqn:Hc; [|reflexivity].
      apply Qle_bool_iff in Hc. exfalso. apply (Qlt_not_le _ _ H Hc). }
  split.
  - destruct (series_max (map bar_close prior)) as [m|] eqn:Hm.
    + destruct (series_max_spec _ _ Hm) as [Hin Hle].
      rewrite (Hgt m eq_refl). rewrite Forall_forall. split.
      * intros Hlt b Hb. apply Qle_lt_trans with m; [apply Hle, in_map, Hb | exact Hlt].
      * intros Hall. apply in_map_iff in Hin. destruct Hin as [b [<- Hb]]. apply Hall, Hb.
    + destruct prior as [|b prior']; [cbn in Hlen; lia|].
      cbn in Hm. destruct (series_max (map bar_close prior')); discriminate.
  - intros m Hm. split; [exact (Hgt m Hm)|].
    intros Heq. apply not_true_is_false. intro Hc.
    apply (Hgt m Hm) in Hc. rewrite Heq in Hc. exfalso. exact (Qlt_irrefl _ Hc).
Qed.

Lemma calc_signal_breakout_witness :
  ((1 <= 3)%nat /\ length (bars_from 1 [10; 11; 9]%Q) = 3%nat) /\
  calc_signal_with 3 (bars_from 0 [] ++ bars_from 1 [10; 11; 9]%Q ++ [bar_at 4 12]) = true.
Proof.
  split; [split; [lia | reflexivity]|].
  apply (proj2 (proj1 (calc_signal_breakout 3 (bars_from 0 []) (bars_from 1 [10; 11; 9]%Q)
                         (bar_at 4 12) ltac:(lia) eq_refl))).
  cbn. repeat constructor.
Defined.

(** C5: a history shorter than [lookback + 1] bars gives no signal. *)
Theorem calc_signal_insufficient (lookback : nat) (df : Frame) :
  (length df < lookback + 1)%nat -> calc_signal_with lookback df = false.
Proof.
  intros H. unfold calc_signal_with. apply Nat.ltb_lt in H. rewrite H. reflexivity.
Qed.

Lemma calc_signal_insufficient_witness :
  (length (bars_from 0 [1; 2; 3]%Q) < LOOKBACK + 1)%nat /\
  calc_signal (bars_from 0 [1; 2; 3]%Q) = false.
Proof.
  split; [cbn; lia|].
  apply (calc_signal_insufficient LOOKBACK (bars_from 0 [1; 2; 3]%Q)). cbn; lia.
Defined.

(** ** Position sizing *)

(** C4: for a positive price and a non-negative budget the quantity is
    [floor (budget / price)], non-negative and at most [budget / price];
    for a price [<= 0] it is 0. *)
Theorem round_qty_spec (price dollars : Q) :
  ((0 < price)%Q -> (0 <= dollars)%Q ->
   round_qty price dollars = Qfloor (dollars / price) /\
   0 <= round_qty price dollars /\
   (inject_Z (round_qty price dollars) <= dollars / price)%Q) /\
  ((price <= 0)%Q -> round_qty price dollars = 0).
Proof.
  unfold round_qty. split.
  - intros Hp Hd.
    destruct (Qle_bool price 0) eqn:Hb.
    { apply Qle_bool_iff in Hb. exfalso. exact (Qlt_not_le _ _ Hp Hb). }
    assert (Hq : (0 <= dollars / price)%Q).
    { unfold Qdiv. apply Qmult_le_0_compat; [exact Hd|].
      apply Qinv_le_0_compat, Qlt_le_weak, Hp. }
    pose proof (Qfloor_resp_le _ _ Hq) as Hf. change (Qfloor 0%Q) with 0 in Hf.
    rewrite Z.max_l by exact Hf.
    split; [reflexivity|]. split; [exact Hf|apply Qfloor_le].
  - intros Hp. apply Qle_bool_iff in Hp. rewrite Hp. reflexivity.
Qed.

Lemma round_qty_spec_witness :
  round_qty 50 (DOLLAR_RISK / SL_PCT) = Qfloor ((DOLLAR_RISK / SL_PCT) / 50) /\
  round_qty 0 100 = 0.
Proof.
  split.
  - refine (proj1 (proj1 (round_qty_spec 50 (DOLLAR_RISK / SL_PCT)) _ _));
      vm_compute; [reflexivity | discriminate].
  - apply (proj2 (round_qty_spec 0 100)). vm_compute. discriminate.
Defined.

(** ** Bracket orders *)

(** C7: [place_bracket_market] submits exactly one order: a bracket buy of
    [qty] units of [sym] whose take-profit leg has limit price
    [round(price * (1 + TP_PCT), 2)] and whose stop-loss leg has stop price
    [round(price * (1 - SL_PCT), 2)], with the float operations of Python;
    each leg is the product rounded to cents: the double of a two-decimal
    number at most half a cent away from the (floating) product. *)
Theorem place_bracket_market_legs submit_order (sym : string) (qty : Z) (price : Q) (s : Trace) :
  let p := Q2F price in
  let tp := py_mul p (py_add (Q2F 1) (Q2F TP_PCT)) in
  let sl := py_mul p (py_sub (Q2F 1) (Q2F SL_PCT)) in
  exists o,
    snd (place_bracket_market submit_order sym qty price s) = s ++ [ESubmit o] /\
    o_symbol o = sym /\ o_qty o = qty /\ o_side o = BUY /\ o_order_class o = BRACKET /\
    limit_price (o_take_profit o) = py_round2 tp /\
    stop_price (o_stop_loss o) = py_round2 sl /\
    cents_of tp (limit_price (o_take_profit o)) /\
    cents_of sl (stop_price (o_stop_loss o)).
Proof.
  intros p tp sl.
  exists (bracket_order sym qty price).
  unfold place_bracket_market, call_submit.
  split; [destruct (submit_order s (bracket_order sym qty price)); reflexivity|].
  cbn [bracket_order o_symbol o_qty o_side o_order_class o_take_profit o_stop_loss
       limit_price stop_price].
  repeat split; apply py_round2_cents.
Qed.

(** ** The per-cycle bar map *)

Lemma dict_set_in {V} (k : string) (v : V) d k' v' :
  In (k', v') (dict_set k v d) -> (k', v') = (k, v) \/ In (k', v') d.
Proof.
  induction d as [|[k0 v0] d IH]; cbn; intros H.
  - destruct H as [H|[]]. left. congruence.
  - destruct (String.eqb k0 k).
    + destruct H as [H|H]; [left; congruence | right; right; exact H].
    + destruct H as [H|H]; [right; left; exact H|].
      destruct (IH H); [left | right; right]; assumption.
Qed.

Lemma dict_set_keys {V} (k : string) (v : V) d key :
  In key (map fst (dict_set k v d)) -> key = k \/ In key (map fst d).
Proof.
  intros H. apply in_map_iff in H. destruct H as [[k1 v1] [<- H]].
  destruct (dict_set_in _ _ _ _ _ H) as [E|E].
  - left. cbn. congruence.
  - right. apply in_map_iff. exists (k1, v1). auto.
Qed.

Lemma dict_set_nodup {V} (k : string) (v : V) d :
  NoDup (map fst d) -> NoDup (map fst (dict_set k v d)).
Proof.
  induction d as [|[k0 v0] d IH]; cbn; intros H.
  - constructor; [intros []|constructor].
  - inversion H as [|? ? Hn Hd]; subst.
    destruct (String.eqb k0 k) eqn:E.
    + apply String.eqb_eq in E. subst. constructor; assumption.
    + apply String.eqb_neq in E. constructor; [|apply IH, Hd].
      intros Hin. destruct (dict_set_keys _ _ _ _ Hin) as [Hk|Hk]; [exact (E Hk) | exact (Hn Hk)].
Qed.

Lemma reshape_fold_in rows (l : list string) :
  forall acc sym df,
    In (sym, df) (fold_left (fun latest sym =>
                               if level0_contains rows sym
                               then dict_set sym (xs sym rows) latest else latest) l acc) ->
    In (sym, df) acc \/
    (In sym l /\ df = xs sym rows /\ level0_contains rows sym = true).
Proof.
  induction l as [|x l IH]; cbn; intros acc sym df H; [left; exact H|].
  destruct (IH _ _ _ H) as [H1|[H1 H2]]; [|right; split; [right; exact H1 | exact H2]].
  destruct (level0_contains rows x) eqn:E; [|left; exact H1].
  destruct (dict_set_in _ _ _ _ _ H1) as [E1|E1]; [|left; exact E1].
  injection E1 as -> ->. right. split; [left; reflexivity|]. split; [reflexivity|exact E].
Qed.

Lemma reshape_fold_nodup rows (l : list string) :
  forall acc, NoDup (map fst acc) ->
    NoDup (map fst (fold_left (fun latest sym =>
                                 if level0_contains rows sym
                                 then dict_set sym (xs sym rows) latest else latest) l acc)).
Proof.
  induction l as [|x l IH]; cbn; intros acc H; [exact H|].
  apply IH. destruct (level0_contains rows x); [apply dict_set_nodup|]; exact H.
Qed.

Lemma reshape_nodup syms rows m :
  reshape syms rows = Some m -> NoDup (map fst m).
Proof.
  intros H. unfold reshape in H. destruct rows as [|r rows'] eqn:Er; [discriminate|].
  rewrite <- Er in H. injection H as <-. apply reshape_fold_nodup. constructor.
Qed.

(** The 1-tuple [(sym,)] equals no string label, so the test of line 49
    fails for every symbol and every batch. *)
Lemma level0_contains_false rows sym : level0_contains rows sym = false.
Proof.
  unfold level0_contains, py_in, level_values0.
  induction rows as [|r rows IH]; [reflexivity|]. cbn. exact IH.
Qed.

Lemma level0_contains_bar rows sym :
  level0_contains rows sym = true -> exists b, In (sym, b) rows.
Proof. rewrite level0_contains_false. discriminate. Qed.

Lemma reshape_fold_absent rows (l : list string) :
  (forall sym, In sym l -> level0_contains rows sym = false) ->
  forall acc,
    fold_left (fun latest sym =>
                 if level0_contains rows sym then dict_set sym (xs sym rows) latest
                 else latest) l acc = acc.
Proof.
  induction l as [|x l IH]; intros H acc; [reflexivity|].
  cbn. rewrite (H x (or_introl eq_refl)). apply IH. intros sym Hs. apply H. right. exact Hs.
Qed.

(** Hence [get_latest_bars] maps an empty batch to [None] and every other
    batch to the empty dict. *)
Lemma reshape_empty (syms : list string) rows :
  reshape syms rows = match rows with [] => None | _ => Some [] end.
Proof.
  destruct rows as [|r rows'] eqn:Er; [reflexivity|]. unfold reshape. rewrite <- Er.
  f_equal. apply reshape_fold_absent. intros sym _. apply level0_contains_false.
Qed.

(** C10: after a successful fetch, [get_latest_bars] raises nothing and logs
    nothing; its map has an entry for a symbol only if the symbol was
    requested and the batch holds at least one bar for it (the entry is
    then that symbol's rows); a symbol without bars in the batch gets no
    entry.  Because the test of line 49 never holds, the map is in fact
    always empty: [None] for an empty batch, [{}] for any other. *)
Theorem get_latest_bars_present_only get_stock_bars (syms : list string) (limit : nat)
    (s : Trace) rows :
  get_stock_bars s syms limit = inr rows ->
  get_latest_bars get_stock_bars syms limit s = (inr (reshape syms rows), s ++ [EFetch syms rows]) /\
  reshape syms rows = match rows with [] => None | _ => Some [] end /\
  (forall m, reshape syms rows = Some m ->
     (forall sym df, In (sym, df) m ->
        In sym syms /\ df = xs sym rows /\ exists b, In (sym, b) rows) /\
     (forall sym, (forall b, ~ In (sym, b) rows) -> ~ In sym (map fst m))).
Proof.
  intros Hf. split.
  { unfold get_latest_bars, bind, call_bars. rewrite Hf. reflexivity. }
  split; [apply reshape_empty|].
  intros m Hm.
  assert (Hin : forall sym df, In (sym, df) m ->
            In sym syms /\ df = xs sym rows /\ exists b, In (sym, b) rows).
  { intros sym df H. unfold reshape in Hm. destruct rows as [|r rows'] eqn:Er; [discriminate|].
    rewrite <- Er in Hm. injection Hm as <-.
    destruct (reshape_fold_in _ _ _ _ _ H) as [[]|[H1 [H2 H3]]].
    rewrite <- Er. split; [exact H1|]. split; [exact H2|]. apply level0_contains_bar, H3. }
  split; [exact Hin|].
  intros sym Hno Hk. apply in_map_iff in Hk. destruct Hk as [[k df] [Hk H]]. cbn in Hk. subst k.
  destruct (Hin _ _ H) as [_ [_ [b Hb]]]. exact (Hno b Hb).
Qed.

Lemma get_latest_bars_present_only_witness :
  (fun (_ : Trace) (_ : list string) (_ : nat) =>
     inr (A := Exc) [("AAPL"%string, bar_at 0 10)]) [] SYMBOLS 21%nat
    = inr [("AAPL"%string, bar_at 0 10)] /\
  get_latest_bars (fun _ _ _ => inr [("AAPL"%string, bar_at 0 10)]) SYMBOLS 21 []
    = (inr (reshape SYMBOLS [("AAPL"%string, bar_at 0 10)]),
       [] ++ [EFetch SYMBOLS [("AAPL"%string, bar_at 0 10)]]) /\
  reshape SYMBOLS [("AAPL"%string, bar_at 0 10)] = Some [].
Proof.
  split; [reflexivity|].
  destruct (get_latest_bars_present_only (fun _ _ _ => inr [("AAPL"%string, bar_at 0 10)])
              SYMBOLS 21 [] _ eq_refl) as [H1 [H2 _]].
  split; [exact H1 | exact H2].
Defined.

(** ** Order gating *)

Lemma gated_app lq (a b : Trace) :
  gated lq a -> (forall lq', gated lq' b) -> gated lq (a ++ b).
Proof.
  revert lq; induction a as [|e a IH]; intros lq Ha Hb; [apply Hb|].
  destruct e; cbn in Ha |- *; try (apply IH; assumption).
  destruct Ha as [H1 H2]. split; [exact H1 | apply IH; assumption].
Qed.

Lemma gated_cons_step lq e (r : Trace) : gated lq (e :: r) -> gated (lq_step lq e) r.
Proof. destruct e; cbn; try tauto. Qed.

Lemma gated_split (pre post : Trace) o :
  forall lq, gated lq (pre ++ ESubmit o :: post) ->
  exists ps, fold_left lq_step pre lq = Some ps /\ ~ position_reported (o_symbol o) ps.
Proof.
  induction pre as [|e pre IH]; intros lq H.
  - cbn in H. apply (proj1 H).
  - cbn. apply IH. apply (gated_cons_step lq e), H.
Qed.

Lemma count_submits_app sym (a b : Trace) :
  count_submits sym (a ++ b) = (count_submits sym a + count_submits sym b)%nat.
Proof. unfold count_submits. rewrite filter_app, length_app. reflexivity. Qed.

Lemma existsb_not_reported sym ps :
  existsb (fun p => String.eqb (p_symbol p) sym) ps = false -> ~ position_reported sym ps.
Proof.
  intros H [p [Hin Hs]]. rewrite <- not_true_iff_false, existsb_exists in H.
  apply H. exists p. split; [exact Hin | apply String.eqb_eq, Hs].
Qed.

Ltac close_trace := eexists; split; [rewrite <- ?app_assoc; cbn [app]; reflexivity|].

Lemma process_symbol_events get_all_positions submit_order (sym : string) (df : Frame)
    (s : Trace) :
  exists new,
    snd (process_symbol get_all_positions submit_order (sym, df) s) = s ++ new /\
    (forall lq, gated lq new) /\
    (forall sym', (count_submits sym' new <= if String.eqb sym sym' then 1 else 0)%nat).
Proof.
  unfold process_symbol, last_close.
  destruct df as [|b df'].
  { exists []. rewrite app_nil_r. split; [reflexivity|]. split; [constructor|intros; cbn; lia]. }
  set (lp := last (map bar_close (b :: df')) 0%Q).
  unfold already_open, call_positions, place_bracket_market, call_submit,
    bind, ret, print, emit.
  destruct (get_all_positions s) as [e|ps]; cbv beta iota.
  { exists []. rewrite app_nil_r. split; [reflexivity|]. split; [constructor|intros; cbn; lia]. }
  destruct (existsb (fun p => String.eqb (p_symbol p) sym) ps) eqn:Ho.
  { close_trace. split; [intros; exact I | intros; cbn; lia]. }
  destruct (calc_signal (b :: df')).
  2: { close_trace. split; [intros; exact I | intros; cbn; lia]. }
  destruct (round_qty _ _ <=? 0).
  { close_trace. split; [intros; exact I | intros; cbn; lia]. }
  destruct (submit_order _ _) as [err|resp]; cbv beta iota; close_trace;
    (split;
     [intros lq; cbn; split; [exists ps; split; [reflexivity | apply existsb_not_reported, Ho]
                              | try exact I]
     | intros sym'; unfold count_submits; cbn;
       destruct (String.eqb sym sym'); cbn; lia]).
Qed.

Lemma for_each_process_events get_all_positions submit_order (l : list (string * Frame)) :
  forall s, exists new,
    snd (for_each (process_symbol get_all_positions submit_order) l s) = s ++ new /\
    (forall lq, gated lq new) /\
    (forall sym', (count_submits sym' new <=
                   length (filter (fun k => String.eqb k sym') (map fst l)))%nat).
Proof.
  induction l as [|[sym df] l IH]; intros s.
  { exists []. rewrite app_nil_r. split; [reflexivity|]. split; [constructor|intros; cbn; lia]. }
  cbn [for_each]. unfold bind.
  destruct (process_symbol_events get_all_positions submit_order sym df s)
    as [new1 [E1 [G1 C1]]].
  destruct (process_symbol get_all_positions submit_order (sym, df) s) as [[e|u] s1].
  - exists new1. cbn in E1 |- *. split; [exact E1|]. split; [exact G1|].
    intros sym'. specialize (C1 sym'). destruct (String.eqb sym sym'); cbn; lia.
  - cbn in E1. subst s1. destruct (IH (s ++ new1)) as [new2 [E2 [G2 C2]]].
    exists (new1 ++ new2). rewrite app_assoc. split; [exact E2|].
    split; [intros lq; apply gated_app; auto|].
    intros sym'. rewrite count_submits_app. specialize (C1 sym'). specialize (C2 sym').
    cbn. destruct (String.eqb sym sym'); cbn; lia.
Qed.

Lemma filter_eqb_absent (keys : list string) sym :
  ~ In sym keys -> filter (fun k => String.eqb k sym) keys = [].
Proof.
  induction keys as [|k keys IH]; intros H; cbn; [reflexivity|].
  destruct (String.eqb k sym) eqn:E.
  - apply String.eqb_eq in E. subst. exfalso. apply H. left. reflexivity.
  - apply IH. intros Hi. apply H. right. exact Hi.
Qed.

Lemma filter_eqb_nodup (keys : list string) sym :
  NoDup keys -> (length (filter (fun k => String.eqb k sym) keys) <= 1)%nat.
Proof.
  induction keys as [|k keys IH]; intros H; cbn; [lia|].
  inversion H as [|? ? Hn Hd]; subst.
  destruct (String.eqb k sym) eqn:E; cbn; [|apply IH, Hd].
  apply String.eqb_eq in E. subst.
  rewrite filter_eqb_absent by exact Hn. cbn. lia.
Qed.

Lemma no_submit_gated (t : Trace) :
  (forall o, ~ In (ESubmit o) t) -> forall lq, gated lq t.
Proof.
  induction t as [|e t IH]; intros H lq; [exact I|].
  destruct e; cbn;
    try (apply IH; intros o Ho; apply (H o); right; exact Ho).
  exfalso. apply (H o). left. reflexivity.
Qed.

Lemma no_submit_count sym (t : Trace) :
  (forall o, ~ In (ESubmit o) t) -> count_submits sym t = 0%nat.
Proof.
  induction t as [|e t IH]; intros H; [reflexivity|].
  destruct e; unfold count_submits in *; cbn;
    try (apply IH; intros o Ho; apply (H o); right; exact Ho).
  exfalso. apply (H o). left. reflexivity.
Qed.

Lemma cycle_body_events get_stock_bars get_all_positions submit_order
    (tradable_syms : list string) (s : Trace) :
  exists new,
    snd (cycle_body get_stock_bars get_all_positions submit_order tradable_syms s) = s ++ new /\
    (forall lq, gated lq new) /\
    (forall sym, (count_submits sym new <= 1)%nat).
Proof.
  unfold cycle_body, get_latest_bars, call_bars, bind, ret, print, sleep, emit.
  destruct (get_stock_bars s tradable_syms (LOOKBACK + 1)%nat) as [e|rows]; cbv beta iota.
  { exists []. rewrite app_nil_r. split; [reflexivity|]. split; [constructor|intros; cbn; lia]. }
  destruct (reshape tradable_syms rows) as [[|x m]|] eqn:Er.
  2: { destruct (for_each_process_events get_all_positions submit_order (x :: m)
                   (s ++ [EFetch tradable_syms rows])) as [new [E [G C]]].
       destruct (for_each (process_symbol get_all_positions submit_order) (x :: m)
                   (s ++ [EFetch tradable_syms rows])) as [[e|u] s1]; cbn in E |- *; subst s1.
       - exists (EFetch tradable_syms rows :: new). rewrite <- app_assoc. split; [reflexivity|].
         split; [intros lq; apply G|].
         intros sym. specialize (C sym). unfold count_submits in *. cbn.
         pose proof (filter_eqb_nodup _ sym (reshape_nodup _ _ _ Er)). lia.
       - exists (EFetch tradable_syms rows :: new ++ [ESleep POLL_SEC]).
         rewrite <- !app_assoc. split; [reflexivity|].
         split; [intros lq; apply (gated_app lq (EFetch tradable_syms rows :: new)); [apply G|];
                 intros lq'; cbn; exact I|].
         intros sym. specialize (C sym).
         change (EFetch tradable_syms rows :: new ++ [ESleep POLL_SEC])
           with ([EFetch tradable_syms rows] ++ new ++ [ESleep POLL_SEC]).
         rewrite !count_submits_app.
         pose proof (filter_eqb_nodup _ sym (reshape_nodup _ _ _ Er)). cbn. lia. }
  all: close_trace; split; [intros; exact I | intros; cbn; lia].
Qed.

(** C3: in every poll cycle, at most one order is sent per symbol, and
    each order sent is preceded in that cycle by a position query (the
    latest one before it, i.e. the gate query of its symbol) that did not
    report an open position in its symbol.  The same holds for the loop over
    the bar map (lines 116-132) run on any map with distinct symbols, which
    is what the gate does when a map reaches it. *)
Theorem cycle_gates_orders get_stock_bars get_all_positions submit_order
    (tradable_syms : list string) (s : Trace) :
  (exists new,
    snd (loop_iteration get_stock_bars get_all_positions submit_order tradable_syms s) = s ++ new /\
    (forall sym, (count_submits sym new <= 1)%nat) /\
    (forall pre o post, new = pre ++ ESubmit o :: post ->
       exists ps, last_query pre = Some ps /\ ~ position_reported (o_symbol o) ps)) /\
  (forall (m : list (string * Frame)) (s0 : Trace), NoDup (map fst m) ->
   exists new,
    snd (for_each (process_symbol get_all_positions submit_order) m s0) = s0 ++ new /\
    (forall sym, (count_submits sym new <= 1)%nat) /\
    (forall pre o post, new = pre ++ ESubmit o :: post ->
       exists ps, last_query pre = Some ps /\ ~ position_reported (o_symbol o) ps)).
Proof.
  split.
  2: { intros m s0 Hnd.
       destruct (for_each_process_events get_all_positions submit_order m s0) as [new [E [G C]]].
       exists new. split; [exact E|]. split.
       - intros sym. specialize (C sym). pose proof (filter_eqb_nodup _ sym Hnd). lia.
       - intros pre o post Hs. unfold last_query. apply (gated_split pre post o None).
         rewrite <- Hs. apply G. }
  destruct (cycle_body_events get_stock_bars get_all_positions submit_order tradable_syms s)
    as [new [E [G C]]].
  assert (Hfin : forall tl : Trace, (forall o, ~ In (ESubmit o) tl) ->
            (forall sym, (count_submits sym (new ++ tl) <= 1)%nat) /\
            (forall pre o post, new ++ tl = pre ++ ESubmit o :: post ->
               exists ps, last_query pre = Some ps /\ ~ position_reported (o_symbol o) ps)).
  { intros tl Htl. split.
    - intros sym. rewrite count_submits_app, (no_submit_count sym tl Htl). specialize (C sym). lia.
    - intros pre o post Hs. unfold last_query. apply (gated_split pre post o None). rewrite <- Hs.
      apply gated_app; [apply G | apply no_submit_gated, Htl]. }
  unfold loop_iteration.
  destruct (cycle_body get_stock_bars get_all_positions submit_order tradable_syms s)
    as [r s1]. cbn in E. subst s1.
  destruct r as [[|e]|u].
  - exists (new ++ [EPrint LExiting]). rewrite app_assoc. split; [reflexivity|].
    apply Hfin. intros o [H|[]]. discriminate.
  - exists (new ++ [EPrint (LError e); ESleep POLL_SEC]). rewrite app_assoc. split; [reflexivity|].
    apply Hfin. intros o [H|[H|[]]]; discriminate.
  - exists (new ++ []). rewrite app_assoc, app_nil_r. split; [reflexivity|].
    apply Hfin. intros o [].
Qed.

Lemma cycle_gates_orders_witness :
  NoDup (map fst cx_map) /\
  (forall sym, (count_submits sym (snd (for_each (process_symbol cx_positions cx_submit) cx_map []))
                <= 1)%nat).
Proof.
  assert (Hnd : NoDup (map fst cx_map)).
  { constructor; [intros [H|[]]; discriminate | constructor; [intros []|constructor]]. }
  split; [exact Hnd|].
  destruct (proj2 (cycle_gates_orders cx_bars cx_positions cx_submit cx_syms []) cx_map [] Hnd)
    as [new [E [C _]]].
  rewrite E. exact C.
Defined.

(** ** Cycles without data *)

Lemma level0_contains_absent rows (syms : list string) sym :
  (forall r, In r rows -> ~ In (fst r) syms) -> In sym syms -> level0_contains rows sym = false.
Proof.
  intros _ _. apply level0_contains_false.
Qed.

(** C9: when the batched fetch returns an empty frame, or a frame without
    rows for any requested symbol, the cycle logs "No bars yet...", sleeps
    [POLL_SEC] and goes on to the next cycle: no position query, no order,
    no error message. *)
Theorem no_bars_cycle get_stock_bars get_all_positions submit_order
    (tradable_syms : list string) (s : Trace) rows :
  get_stock_bars s tradable_syms (LOOKBACK + 1)%nat = inr rows ->
  (rows = [] \/ forall r, In r rows -> ~ In (fst r) tradable_syms) ->
  loop_iteration get_stock_bars get_all_positions submit_order tradable_syms s =
  (inr false, s ++ [EFetch tradable_syms rows; EPrint LNoBars; ESleep POLL_SEC]).
Proof.
  intros Hf Hrows.
  assert (Hr : reshape tradable_syms rows = None \/ reshape tradable_syms rows = Some []).
  { destruct Hrows as [->|Habs]; [left; reflexivity|].
    unfold reshape. destruct rows as [|r rows'] eqn:Er; [left; reflexivity|].
    right. rewrite <- Er. f_equal. apply reshape_fold_absent.
    intros sym Hs. apply (level0_contains_absent _ tradable_syms); [|exact Hs].
    rewrite Er. exact Habs. }
  unfold loop_iteration, cycle_body, get_latest_bars, call_bars, bind, ret, print, sleep, emit.
  rewrite Hf. cbv beta iota.
  destruct Hr as [-> | ->]; rewrite <- !app_assoc; reflexivity.
Qed.

Lemma no_bars_cycle_witness :
  ((fun (_ : Trace) (_ : list string) (_ : nat) => inr (A := Exc) (@nil (string * Bar)))
     [] cx_syms (LOOKBACK + 1)%nat = inr [] /\ (@nil (string * Bar)) = []) /\
  loop_iteration (fun _ _ _ => inr []) cx_positions cx_submit cx_syms [] =
  (inr false, [EFetch cx_syms []; EPrint LNoBars; ESleep POLL_SEC]).
Proof.
  split; [split; reflexivity|].
  exact (no_bars_cycle (fun _ _ _ => inr []) cx_positions cx_submit cx_syms [] []
           eq_refl (or_introl eq_refl)).
Defined.

(** ** Startup without tradable symbols *)

(** C8: when [ensure_tradable] finds no tradable symbol, [main] prints the
    diagnostic and returns: after the asset query, nothing else happens
    (no fetch, no position query, no order, no loop iteration). *)
Theorem main_exits_without_tradables get_all_assets get_stock_bars get_all_positions
    submit_order (fuel : nat) (s : Trace) :
  fst (ensure_tradable get_all_assets SYMBOLS s) = inr [] ->
  exists assets,
    main get_all_assets get_stock_bars get_all_positions submit_order fuel s =
    (inr NoTradable, s ++ [EAssets assets; EPrint LNoTradable]).
Proof.
  unfold main, ensure_tradable, call_assets, bind, ret, print, emit.
  destruct (get_all_assets s) as [e|assets]; cbn; intros H; [discriminate|].
  injection H as H. rewrite H. exists assets. rewrite <- app_assoc. reflexivity.
Qed.

Lemma main_exits_without_tradables_witness :
  fst (ensure_tradable (fun _ => inr [mkAsset "AAPL" false]) SYMBOLS []) = inr [] /\
  exists assets,
    main (fun _ => inr [mkAsset "AAPL" false]) cx_bars cx_positions cx_submit 5 [] =
    (inr NoTradable, [] ++ [EAssets assets; EPrint LNoTradable]).
Proof.
  split; [vm_compute; reflexivity|].
  apply (main_exits_without_tradables (fun _ => inr [mkAsset "AAPL" false])
           cx_bars cx_positions cx_submit 5 []).
  vm_compute. reflexivity.
Defined.

(** ** Fault handling of the loop *)

(** The handler of [except Exception] (lines 139-141). *)
Lemma iteration_on_exception get_stock_bars get_all_positions submit_order
    (tradable_syms : list string) (s s' : Trace) (e : string) :
  cycle_body get_stock_bars get_all_positions submit_order tradable_syms s =
    (inl (PyException e), s') ->
  loop_iteration get_stock_bars get_all_positions submit_order tradable_syms s =
    (inr false, s' ++ [EPrint (LError e); ESleep POLL_SEC]).
Proof. intros H. unfold loop_iteration. rewrite H. reflexivity. Qed.

Section NoInterrupt.

Variable get_stock_bars : Trace -> list string -> nat -> Exc + list (string * Bar).
Variable get_all_positions : Trace -> Exc + list Position.
Variable submit_order : Trace -> MarketOrderRequest -> Exc + OrderResp.

Hypothesis bars_no_ki : forall t syms lim, get_stock_bars t syms lim <> inl KeyboardInterrupt.
Hypothesis positions_no_ki : forall t, get_all_positions t <> inl KeyboardInterrupt.
Hypothesis submit_no_ki : forall t o, submit_order t o <> inl KeyboardInterrupt.

Lemma ni_ret {A} (a : A) : no_interrupt (ret a).
Proof. intros s; discriminate. Qed.

Lemma ni_emit e : no_interrupt (emit e).
Proof. intros s; discriminate. Qed.

Lemma ni_raise {A} msg : no_interrupt (A := A) (raise (PyException msg)).
Proof. intros s; discriminate. Qed.

Lemma ni_bind {A B} (m : M A) (f : A -> M B) :
  no_interrupt m -> (forall a, no_interrupt (f a)) -> no_interrupt (bind m f).
Proof.
  intros Hm Hf s. unfold bind. specialize (Hm s).
  destruct (m s) as [[e|a] s']; [cbn in *; congruence | apply Hf].
Qed.

Lemma ni_call_bars syms lim : no_interrupt (call_bars get_stock_bars syms lim).
Proof.
  intros s. unfold call_bars. specialize (bars_no_ki s syms lim).
  destruct (get_stock_bars s syms lim); cbn; congruence.
Qed.

Lemma ni_call_positions : no_interrupt (call_positions get_all_positions).
Proof.
  intros s. unfold call_positions. specialize (positions_no_ki s).
  destruct (get_all_positions s); cbn; congruence.
Qed.

Lemma ni_call_submit o : no_interrupt (call_submit submit_order o).
Proof.
  intros s. unfold call_submit. specialize (submit_no_ki s o).
  destruct (submit_order s o); cbn; congruence.
Qed.

Create HintDb noki.
#[local] Hint Resolve ni_ret ni_emit ni_raise ni_call_bars ni_call_positions ni_call_submit
  : noki.

Ltac solve_ni :=
  repeat match goal with
         | |- no_interrupt (bind _ _) => apply ni_bind; [|intros]
         | |- no_interrupt (if ?b then _ else _) => destruct b
         | |- no_interrupt (match ?x with _ => _ end) => destruct x
         | |- no_interrupt _ => solve [auto with noki]
         end.

Lemma ni_process_symbol entry : no_interrupt (process_symbol get_all_positions submit_order entry).
Proof.
  destruct entry as [sym df].
  unfold process_symbol, last_close, already_open, place_bracket_market, print, sleep.
  solve_ni.
Qed.

Lemma ni_for_each l : no_interrupt (for_each (process_symbol get_all_positions submit_order) l).
Proof.
  induction l as [|x l IH]; cbn [for_each]; [apply ni_ret|].
  apply ni_bind; [apply ni_process_symbol | intros; exact IH].
Qed.

Lemma ni_cycle_body tradable_syms :
  no_interrupt (cycle_body get_stock_bars get_all_positions submit_order tradable_syms).
Proof.
  unfold cycle_body, get_latest_bars, print, sleep.
  apply ni_bind; [apply ni_bind; [apply ni_call_bars | intros; apply ni_ret]|].
  intros bm. destruct bm as [[|x m]|]; [solve_ni | | solve_ni].
  apply ni_bind; [apply ni_for_each | intros; apply ni_emit].
Qed.

Lemma main_loop_running tradable_syms :
  forall fuel s,
    fst (main_loop get_stock_bars get_all_positions submit_order tradable_syms fuel s) =
    inr StillRunning.
Proof.
  induction fuel as [|n IH]; intros s; [reflexivity|].
  cbn [main_loop]. unfold bind at 1, loop_iteration.
  pose proof (ni_cycle_body tradable_syms s) as H.
  destruct (cycle_body get_stock_bars get_all_positions submit_order tradable_syms s)
    as [[[|e]|u] s']; cbn in H |- *; [congruence | apply IH | apply IH].
Qed.

End NoInterrupt.

(** C6: as long as nothing raises [KeyboardInterrupt], the loop never stops,
    however many cycles fail: after any number of iterations it is still
    running; a cycle that raises any other exception is answered by the
    message "Error: ...", a sleep of [POLL_SEC] and the next cycle. *)
Theorem loop_survives_faults get_stock_bars get_all_positions submit_order
    (tradable_syms : list string) :
  (forall t syms lim, get_stock_bars t syms lim <> inl KeyboardInterrupt) ->
  (forall t, get_all_positions t <> inl KeyboardInterrupt) ->
  (forall t o, submit_order t o <> inl KeyboardInterrupt) ->
  (forall fuel s,
     fst (main_loop get_stock_bars get_all_positions submit_order tradable_syms fuel s) =
     inr StillRunning) /\
  (forall s s' e,
     cycle_body get_stock_bars get_all_positions submit_order tradable_syms s =
       (inl (PyException e), s') ->
     loop_iteration get_stock_bars get_all_positions submit_order tradable_syms s =
       (inr false, s' ++ [EPrint (LError e); ESleep POLL_SEC])).
Proof.
  intros H1 H2 H3. split.
  - apply main_loop_running; assumption.
  - intros s s' e. apply iteration_on_exception.
Qed.

Lemma loop_survives_faults_witness :
  ((forall t syms lim, cx_flaky_bars t syms lim <> inl KeyboardInterrupt) /\
   (forall t, cx_positions t <> inl KeyboardInterrupt) /\
   (forall t o, cx_submit t o <> inl KeyboardInterrupt)) /\
  fst (main_loop cx_flaky_bars cx_positions cx_submit cx_syms 3%nat []) = inr StillRunning.
Proof.
  assert (H1 : forall t syms lim, cx_flaky_bars t syms lim <> inl KeyboardInterrupt)
    by (intros; discriminate).
  assert (H2 : forall t, cx_positions t <> inl KeyboardInterrupt) by (intros; discriminate).
  assert (H3 : forall t o, cx_submit t o <> inl KeyboardInterrupt) by (intros; discriminate).
  split; [split; [exact H1 | split; [exact H2 | exact H3]]|].
  exact (proj1 (loop_survives_faults cx_flaky_bars cx_positions cx_submit cx_syms H1 H2 H3) 3%nat []).
Defined.

(** ** Further properties of the pure functions *)

(** X6: [round2] leaves a price that already has two decimals unchanged. *)
Theorem round2_two_decimals (q : Q) : two_decimals q -> round2 q == q.
Proof.
  intros [z Hz]. unfold round2, round_half_even.
  assert (H100 : (q * 100 == inject_Z z)%Q).
  { rewrite Hz. unfold Qdiv. change (/ 100)%Q with (1 # 100)%Q. ring. }
  assert (Hf : Qfloor (q * 100) = z) by (rewrite (Qfloor_comp _ _ H100); apply Qfloor_Z).
  cbv zeta. rewrite Hf.
  destruct (Qeq_bool (q * 100 - inject_Z z) (1 # 2)) eqn:He.
  { apply Qeq_bool_iff in He. exfalso. rewrite H100 in He. lra. }
  destruct (Qle_bool (q * 100 - inject_Z z) (1 # 2)) eqn:Hl.
  { rewrite Hz. reflexivity. }
  exfalso. apply not_true_iff_false in Hl. apply Hl, Qle_bool_iff. rewrite H100. lra.
Qed.

Lemma round2_two_decimals_witness :
  two_decimals (10040 # 100) /\ round2 (10040 # 100) == (10040 # 100).
Proof.
  assert (H : two_decimals (10040 # 100)) by (exists 10040; reflexivity).
  split; [exact H | exact (round2_two_decimals _ H)].
Defined.

(** X7: for a positive price and a non-negative budget the order costs at
    most the budget, and one more unit would cost more than the budget. *)
Theorem round_qty_cost (price dollars : Q) :
  (0 < price)%Q -> (0 <= dollars)%Q ->
  (inject_Z (round_qty price dollars) * price <= dollars)%Q /\
  (dollars < (inject_Z (round_qty price dollars) + 1) * price)%Q.
Proof.
  intros Hp Hd.
  destruct (proj1 (round_qty_spec price dollars) Hp Hd) as [Hq _].
  rewrite Hq.
  assert (Hpd : (dollars / price * price == dollars)%Q).
  { field. intro H0. rewrite H0 in Hp. exact (Qlt_irrefl 0 Hp). }
  split.
  - rewrite <- Hpd at 2. apply Qmult_le_r; [exact Hp | apply Qfloor_le].
  - rewrite <- Hpd at 1. apply Qmult_lt_r; [exact Hp|].
    pose proof (Qlt_floor (dollars / price)) as H. rewrite inject_Z_plus in H. exact H.
Qed.

Lemma round_qty_cost_witness :
  ((0 < 50)%Q /\ (0 <= DOLLAR_RISK / SL_PCT)%Q) /\
  (inject_Z (round_qty 50 (DOLLAR_RISK / SL_PCT)) * 50 <= DOLLAR_RISK / SL_PCT)%Q /\
  (DOLLAR_RISK / SL_PCT < (inject_Z (round_qty 50 (DOLLAR_RISK / SL_PCT)) + 1) * 50)%Q.
Proof.
  assert (H1 : (0 < 50)%Q) by (vm_compute; reflexivity).
  assert (H2 : (0 <= DOLLAR_RISK / SL_PCT)%Q) by (vm_compute; discriminate).
  split; [split; assumption | exact (round_qty_cost _ _ H1 H2)].
Defined.

(** X8: at a positive price the quantity grows with the budget, and a
    negative budget gives 0. *)
Theorem round_qty_monotone (price d1 d2 : Q) :
  (0 < price)%Q ->
  ((d1 <= d2)%Q -> round_qty price d1 <= round_qty price d2) /\
  ((d1 <= 0)%Q -> round_qty price d1 = 0).
Proof.
  intros Hp. unfold round_qty.
  destruct (Qle_bool price 0) eqn:Hb.
  { apply Qle_bool_iff in Hb. exfalso. exact (Qlt_not_le _ _ Hp Hb). }
  assert (Hinv : (0 <= / price)%Q) by (apply Qinv_le_0_compat, Qlt_le_weak, Hp).
  split.
  - intros H. assert (Hq : (d1 / price <= d2 / price)%Q) by (apply Qmult_le_compat_r; assumption).
    pose proof (Qfloor_resp_le _ _ Hq). lia.
  - intros H. assert (Hq : (d1 / price <= 0)%Q).
    { setoid_replace 0%Q with (0 * / price)%Q by ring. apply Qmult_le_compat_r; assumption. }
    pose proof (Qfloor_resp_le _ _ Hq) as Hf. change (Qfloor 0%Q) with 0 in Hf. lia.
Qed.

Lemma round_qty_monotone_witness :
  (0 < 50)%Q /\ round_qty 50 (-10) = 0.
Proof.
  assert (H : (0 < 50)%Q) by (vm_compute; reflexivity).
  split; [exact H|]. apply (proj2 (round_qty_monotone 50 (-10) 0 H)). vm_compute. discriminate.
Defined.

Lemma last_app_ne {A} (l l' : list A) (d : A) : l' <> [] -> last (l ++ l') d = last l' d.
Proof.
  intros Hne. induction l as [|a l IH]; [reflexivity|].
  cbn [app]. rewrite <- IH. destruct (l ++ l') eqn:E; [|reflexivity].
  apply app_eq_nil in E. destruct E; contradiction.
Qed.

Lemma iloc_neg_slice_app {A} (a b : nat) (pre l : list A) :
  (b <= a)%nat -> (a <= length l)%nat ->
  iloc_neg_slice a b (pre ++ l) = iloc_neg_slice a b l.
Proof.
  intros Hba Hal. unfold iloc_neg_slice. rewrite length_app.
  replace (length pre + length l - b - (length pre + length l - a))%nat
    with (length l - b - (length l - a))%nat by lia.
  replace (length pre + length l - a)%nat with (length pre + (length l - a))%nat by lia.
  rewrite skipn_app, skipn_all2 by lia.
  replace (length pre + (length l - a) - length pre)%nat with (length l - a)%nat by lia.
  reflexivity.
Qed.

(** X9: the signal only looks at the latest [lookback + 1] bars: bars
    added before a long enough history do not change it. *)
Theorem calc_signal_window (lookback : nat) (pre df : Frame) :
  (lookback + 1 <= length df)%nat ->
  calc_signal_with lookback (pre ++ df) = calc_signal_with lookback df.
Proof.
  intros H. unfold calc_signal_with.
  replace (length (pre ++ df) <? lookback + 1)%nat with false
    by (symmetry; apply Nat.ltb_ge; rewrite length_app; lia).
  replace (length df <? lookback + 1)%nat with false by (symmetry; apply Nat.ltb_ge; lia).
  rewrite map_app, iloc_neg_slice_app by (rewrite ?length_map; lia).
  rewrite last_app_ne; [reflexivity|].
  intros E. apply (f_equal (@length Q)) in E. rewrite length_map in E. cbn in E. lia.
Qed.

Lemma calc_signal_window_witness :
  (3 + 1 <= length (bars_from 0 [10; 11; 9; 12]%Q))%nat /\
  calc_signal_with 3 (bars_from 100 [50; 60]%Q ++ bars_from 0 [10; 11; 9; 12]%Q) = true.
Proof.
  split; [cbn; lia|].
  rewrite (calc_signal_window 3 (bars_from 100 [50; 60]%Q) (bars_from 0 [10; 11; 9; 12]%Q))
    by (cbn; lia).
  reflexivity.
Defined.

(** ** The tradable filter *)

Lemma dict_get_set {V} (k k' : string) (v def : V) d :
  dict_get k (dict_set k' v d) def = if String.eqb k' k then v else dict_get k d def.
Proof.
  induction d as [|[k0 v0] d IH]; cbn.
  - destruct (String.eqb k' k); reflexivity.
  - destruct (String.eqb k0 k') eqn:E0.
    + apply String.eqb_eq in E0. subst. cbn. destruct (String.eqb k' k); reflexivity.
    + cbn. rewrite IH. destruct (String.eqb k0 k) eqn:E1; [|reflexivity].
      apply String.eqb_eq in E1. subst.
      destruct (String.eqb k' k) eqn:E2; [|reflexivity].
      apply String.eqb_eq in E2. subst. rewrite String.eqb_refl in E0. discriminate.
Qed.

(** The flag the code reads for [x]: the one of the last asset named [x]. *)
Lemma tradable_map_last (x : string) (assets : list Asset) :
  dict_get x (fold_left (fun m a => dict_set (a_symbol a) (a_tradable a) m) assets []) false
    = true <->
  exists pre a post, assets = pre ++ a :: post /\ a_symbol a = x /\ a_tradable a = true /\
                     (forall b, In b post -> a_symbol b <> x).
Proof.
  induction assets as [|b assets IH] using rev_ind.
  - cbn. split; [discriminate|]. intros [pre [a [post [H _]]]].
    destruct pre; discriminate.
  - rewrite fold_left_app. cbn [fold_left]. rewrite dict_get_set.
    destruct (String.eqb (a_symbol b) x) eqn:E.
    + apply String.eqb_eq in E. split.
      * intros Ht. exists assets, b, []. repeat split; auto. 
      * intros [pre [a [post [Hs [Ha [Ht Hpost]]]]]].
        destruct post as [|c post] using rev_ind.
        -- apply app_inj_tail in Hs. destruct Hs as [_ ->]. exact Ht.
        -- exfalso. rewrite app_comm_cons, app_assoc in Hs. apply app_inj_tail in Hs.
           destruct Hs as [_ <-]. apply (Hpost b); [apply in_or_app; right; left; reflexivity|exact E].
    + apply String.eqb_neq in E. rewrite IH. split.
      * intros [pre [a [post [Hs [Ha [Ht Hpost]]]]]].
        exists pre, a, (post ++ [b]). rewrite Hs, <- app_assoc. repeat split; auto.
        intros c Hc. apply in_app_iff in Hc. destruct Hc as [Hc|[<-|[]]]; [apply Hpost, Hc|exact E].
      * intros [pre [a [post [Hs [Ha [Ht Hpost]]]]]].
        destruct post as [|c post] using rev_ind.
        -- apply app_inj_tail in Hs. destruct Hs as [_ <-]. contradiction.
        -- rewrite app_comm_cons, app_assoc in Hs. apply app_inj_tail in Hs.
           destruct Hs as [Hs _]. exists pre, a, post. repeat split; auto.
           intros d Hd. apply Hpost, in_or_app. left. exact Hd.
Qed.

Lemma set_add_fold (P : string -> bool) (l : list string) :
  forall acc, NoDup acc ->
    let r := fold_left (fun acc s => if P s then set_add s acc else acc) l acc in
    NoDup r /\ (forall x, In x r <-> In x acc \/ (In x l /\ P x = true)).
Proof.
  induction l as [|y l IH]; intros acc Hnd; cbn.
  { split; [exact Hnd|]. intros x. split; [auto|]. intros [H|[[] _]]; exact H. }
  assert (Hnd' : NoDup (if P y then set_add y acc else acc)).
  { destruct (P y); [|exact Hnd]. unfold set_add.
    destruct (existsb (String.eqb y) acc) eqn:E; [exact Hnd|].
    apply NoDup_app; [exact Hnd | constructor; [intros []|constructor] |].
    intros z Hz [<-|[]]. rewrite <- not_true_iff_false, existsb_exists in E.
    apply E. exists y. split; [exact Hz | apply String.eqb_refl]. }
  destruct (IH _ Hnd') as [H1 H2]. split; [exact H1|].
  intros x. rewrite H2. destruct (P y) eqn:Py.
  - unfold set_add. destruct (existsb (String.eqb y) acc) eqn:E.
    + apply existsb_exists in E. destruct E as [z [Hz Ez]]. apply String.eqb_eq in Ez. subst z.
      split.
      * intros [H|[H Hp]]; [left; exact H | right; split; [right; exact H | exact Hp]].
      * intros [H|[[<-|H] Hp]]; [left; exact H | left; exact Hz | right; split; assumption].
    + rewrite in_app_iff. split.
      * intros [[H|[<-|[]]]|[H Hp]];
          [left; exact H | right; split; [left; reflexivity | exact Py] | right; split; [right; exact H | exact Hp]].
      * intros [H|[[<-|H] Hp]]; [left; left; exact H | left; right; left; reflexivity |
                                 right; split; assumption].
  - split.
    + intros [H|[H Hp]]; [left; exact H | right; split; [right; exact H | exact Hp]].
    + intros [H|[[<-|H] Hp]]; [left; exact H | congruence | right; split; assumption].
Qed.

Lemma insert_sorted_perm (x : string) (l : list string) : Permutation (insert_sorted x l) (x :: l).
Proof.
  induction l as [|y l IH]; cbn; [reflexivity|].
  destruct (String.ltb y x); [|reflexivity].
  rewrite IH. apply perm_swap.
Qed.

Lemma sorted_strings_perm (l : list string) : Permutation (sorted_strings l) l.
Proof.
  induction l as [|x l IH]; cbn; [reflexivity|].
  rewrite insert_sorted_perm. apply perm_skip, IH.
Qed.

Lemma string_ltb_total (x y : string) :
  String.ltb y x = false -> x <> y -> String.ltb x y = true.
Proof.
  unfold String.ltb. intros H Hne. rewrite String.compare_antisym.
  destruct (String.compare y x) eqn:E; cbn; try reflexivity; try discriminate.
  exfalso. apply Hne. symmetry. apply String.compare_eq_iff, E.
Qed.

Lemma insert_sorted_sorted (x : string) (l : list string) :
  Sorted (fun a b => String.ltb a b = true) l -> ~ In x l ->
  Sorted (fun a b => String.ltb a b = true) (insert_sorted x l).
Proof.
  induction l as [|y l IH]; intros Hs Hx; cbn; [repeat constructor|].
  destruct (String.ltb y x) eqn:E.
  - apply Sorted_inv in Hs. destruct Hs as [Hl Hh].
    constructor; [apply IH; [exact Hl | intros Hi; apply Hx; right; exact Hi]|].
    destruct l as [|z l]; cbn; [constructor; exact E|].
    destruct (String.ltb z x); constructor; [apply HdRel_inv in Hh; exact Hh | exact E].
  - constructor; [exact Hs|]. constructor.
    apply string_ltb_total; [exact E|]. intros <-. apply Hx. left. reflexivity.
Qed.

Lemma sorted_strings_sorted (l : list string) :
  NoDup l -> Sorted (fun a b => String.ltb a b = true) (sorted_strings l).
Proof.
  induction l as [|x l IH]; intros H; cbn; [constructor|].
  inversion H as [|? ? Hx Hl]; subst.
  apply insert_sorted_sorted; [apply IH, Hl|].
  intros Hi. apply Hx. apply (Permutation_in _ (sorted_strings_perm l)), Hi.
Qed.

(** X1: after a successful asset query, [ensure_tradable] returns the
    requested symbols whose latest asset entry (later entries of a symbol
    override earlier ones) is tradable, without duplicates and in strictly
    increasing string order. *)
Theorem ensure_tradable_result get_all_assets (symbols : list string) (s : Trace) assets :
  get_all_assets s = inr assets ->
  exists res,
    ensure_tradable get_all_assets symbols s = (inr res, s ++ [EAssets assets]) /\
    NoDup res /\ Sorted (fun a b => String.ltb a b = true) res /\
    (forall x, In x res <->
       In x symbols /\
       exists pre a post, assets = pre ++ a :: post /\ a_symbol a = x /\ a_tradable a = true /\
                          (forall b, In b post -> a_symbol b <> x)).
Proof.
  intros Ha. unfold ensure_tradable, call_assets, bind, ret. rewrite Ha. cbv beta iota.
  set (tm := fold_left (fun m a => dict_set (a_symbol a) (a_tradable a) m) assets []).
  destruct (set_add_fold (fun s => dict_get s tm false) symbols [] (NoDup_nil _)) as [H1 H2].
  set (tr := fold_left _ symbols []) in H1, H2.
  eexists. split; [reflexivity|].
  split; [apply (Permutation_NoDup (Permutation_sym (sorted_strings_perm tr))), H1|].
  split; [apply sorted_strings_sorted, H1|].
  intros x. split.
  - intros Hx. apply (Permutation_in _ (sorted_strings_perm tr)) in Hx.
    apply H2 in Hx. destruct Hx as [[]|[Hx Hp]].
    split; [exact Hx | apply tradable_map_last, Hp].
  - intros [Hx Hp]. apply (Permutation_in _ (Permutation_sym (sorted_strings_perm tr))).
    apply H2. right. split; [exact Hx | apply tradable_map_last, Hp].
Qed.

Lemma ensure_tradable_result_witness :
  (fun (_ : Trace) => inr (A := Exc) [mkAsset "MSFT" true; mkAsset "AAPL" true]) [] =
    inr [mkAsset "MSFT" true; mkAsset "AAPL" true] /\
  fst (ensure_tradable (fun _ => inr [mkAsset "MSFT" true; mkAsset "AAPL" true]) SYMBOLS []) =
    inr [("AAPL")%string; ("MSFT")%string].
Proof.
  split; [reflexivity|].
  destruct (ensure_tradable_result (fun _ => inr [mkAsset "MSFT" true; mkAsset "AAPL" true])
              SYMBOLS [] _ eq_refl) as [res [E _]].
  rewrite E. vm_compute in E. injection E as <-. reflexivity.
Defined.

(** ** Further properties of the loop *)

(** X2: an exception of the asset query at startup is not caught: [main]
    raises it before printing anything or entering the loop. *)
Theorem main_startup_exception get_all_assets get_stock_bars get_all_positions submit_order
    (fuel : nat) (s : Trace) (e : Exc) :
  get_all_assets s = inl e ->
  main get_all_assets get_stock_bars get_all_positions submit_order fuel s = (inl e, s).
Proof.
  intros H. unfold main, ensure_tradable, call_assets, bind. rewrite H. reflexivity.
Qed.

Lemma main_startup_exception_witness :
  (fun (_ : Trace) => inl (B := list Asset) (PyException "401 unauthorized")) [] =
    inl (PyException "401 unauthorized") /\
  main (fun _ => inl (PyException "401 unauthorized")) cx_bars cx_positions cx_submit 4 [] =
    (inl (PyException "401 unauthorized"), []).
Proof.
  split; [reflexivity|].
  exact (main_startup_exception (fun _ => inl (PyException "401 unauthorized"))
           cx_bars cx_positions cx_submit 4 [] _ eq_refl).
Defined.

Lemma reported_existsb sym ps :
  position_reported sym ps -> existsb (fun p => String.eqb (p_symbol p) sym) ps = true.
Proof.
  intros [p [Hin Hs]]. apply existsb_exists. exists p. split; [exact Hin|].
  apply String.eqb_eq, Hs.
Qed.

(** X3: when the position query reports a position in [sym], the step of
    [sym] only logs the skip: no signal is acted on and no order is sent,
    whatever its bars are. *)
Theorem process_symbol_open_position get_all_positions submit_order (sym : string)
    (df : Frame) (s : Trace) ps :
  df <> [] -> get_all_positions s = inr ps -> position_reported sym ps ->
  process_symbol get_all_positions submit_order (sym, df) s =
  (inr tt, s ++ [EPositions ps; EPrint (LAlreadyOpen sym)]).
Proof.
  intros Hdf Hp Hr. unfold process_symbol, last_close.
  destruct df as [|b df']; [contradiction|].
  unfold already_open, call_positions, bind, ret, print, emit. rewrite Hp. cbv beta iota.
  rewrite (reported_existsb _ _ Hr). rewrite <- app_assoc. reflexivity.
Qed.

Lemma process_symbol_open_position_witness :
  (xs "AAPL" cx_rows <> [] /\
   (fun (_ : Trace) => inr (A := Exc) [mkPosition "AAPL" 5]) [] = inr [mkPosition "AAPL" 5] /\
   position_reported "AAPL" [mkPosition "AAPL" 5]) /\
  process_symbol (fun _ => inr [mkPosition "AAPL" 5]) cx_submit ("AAPL"%string, xs "AAPL" cx_rows) []
  = (inr tt, [EPositions [mkPosition "AAPL" 5]; EPrint (LAlreadyOpen "AAPL")]).
Proof.
  assert (H1 : xs "AAPL" cx_rows <> []) by (vm_compute; discriminate).
  assert (H3 : position_reported "AAPL" [mkPosition "AAPL" 5])
    by (exists (mkPosition "AAPL" 5); split; [left; reflexivity | reflexivity]).
  split; [split; [exact H1 | split; [reflexivity | exact H3]]|].
  exact (process_symbol_open_position (fun _ => inr [mkPosition "AAPL" 5]) cx_submit
           "AAPL" (xs "AAPL" cx_rows) [] _ H1 eq_refl H3).
Defined.

(** X10: every iteration whose batched fetch succeeds, whatever bars it
    returns, logs "No bars yet...", sleeps [POLL_SEC] and goes on: the map
    built at lines 47-52 is [None] or [{}], so no symbol is processed. *)
Theorem fetched_cycle_no_bars get_stock_bars get_all_positions submit_order
    (tradable_syms : list string) (s : Trace) rows :
  get_stock_bars s tradable_syms (LOOKBACK + 1)%nat = inr rows ->
  loop_iteration get_stock_bars get_all_positions submit_order tradable_syms s =
  (inr false, s ++ [EFetch tradable_syms rows; EPrint LNoBars; ESleep POLL_SEC]).
Proof.
  intros Hf.
  unfold loop_iteration, cycle_body, get_latest_bars, call_bars, bind, ret, print, sleep, emit.
  rewrite Hf. cbv beta iota. rewrite reshape_empty.
  destruct rows; rewrite <- !app_assoc; reflexivity.
Qed.

Lemma fetched_cycle_no_bars_witness :
  cx_bars [] cx_syms (LOOKBACK + 1)%nat = inr cx_rows /\
  loop_iteration cx_bars cx_positions cx_submit cx_syms [] =
  (inr false, [] ++ [EFetch cx_syms cx_rows; EPrint LNoBars; ESleep POLL_SEC]).
Proof.
  split; [reflexivity|].
  exact (fetched_cycle_no_bars cx_bars cx_positions cx_submit cx_syms [] cx_rows eq_refl).
Defined.

Lemma loop_iteration_quiet get_stock_bars get_all_positions submit_order
    (tradable_syms : list string) (s : Trace) :
  exists new,
    snd (loop_iteration get_stock_bars get_all_positions submit_order tradable_syms s) = s ++ new /\
    forallb quiet new = true.
Proof.
  destruct (get_stock_bars s tradable_syms (LOOKBACK + 1)%nat) as [e|rows] eqn:Hf.
  - unfold loop_iteration, cycle_body, get_latest_bars, call_bars, bind.
    rewrite Hf. destruct e; eexists; split; reflexivity.
  - rewrite (fetched_cycle_no_bars _ _ _ _ _ _ Hf). eexists; split; reflexivity.
Qed.

Lemma main_loop_quiet get_stock_bars get_all_positions submit_order
    (tradable_syms : list string) (fuel : nat) :
  forall s, exists new,
    snd (main_loop get_stock_bars get_all_positions submit_order tradable_syms fuel s) = s ++ new /\
    forallb quiet new = true.
Proof.
  induction fuel as [|fuel IH]; intros s.
  { exists []. rewrite app_nil_r. split; reflexivity. }
  cbn [main_loop]. unfold bind, ret.
  destruct (loop_iteration_quiet get_stock_bars get_all_positions submit_order tradable_syms s)
    as [n1 [E1 Q1]].
  destruct (loop_iteration get_stock_bars get_all_positions submit_order tradable_syms s)
    as [[e|[|]] s1]; cbn in E1 |- *; subst s1.
  - exists n1. split; [reflexivity | exact Q1].
  - exists n1. split; [reflexivity | exact Q1].
  - destruct (IH (s ++ n1)) as [n2 [E2 Q2]]. exists (n1 ++ n2).
    rewrite app_assoc. split; [exact E2|]. rewrite forallb_app, Q1, Q2. reflexivity.
Qed.

(** X4: the program never queries the positions and never submits an
    order, whatever the broker and the data service answer and however
    long it runs: [main] only queries the assets, fetches bars, prints and
    sleeps. *)
Theorem main_never_trades get_all_assets get_stock_bars get_all_positions submit_order
    (fuel : nat) (s : Trace) :
  exists new,
    snd (main get_all_assets get_stock_bars get_all_positions submit_order fuel s) = s ++ new /\
    forallb quiet new = true.
Proof.
  unfold main, ensure_tradable, call_assets, bind, ret, print, emit.
  destruct (get_all_assets s) as [e|assets]; cbv beta iota.
  { exists []. rewrite app_nil_r. split; reflexivity. }
  destruct (sorted_strings _) as [|x l].
  { exists [EAssets assets; EPrint LNoTradable]. rewrite <- app_assoc. split; reflexivity. }
  destruct (main_loop_quiet get_stock_bars get_all_positions submit_order (x :: l) fuel
              ((s ++ [EAssets assets]) ++ [EPrint LStarting])) as [n [E Qn]].
  destruct (main_loop get_stock_bars get_all_positions submit_order (x :: l) fuel
              ((s ++ [EAssets assets]) ++ [EPrint LStarting])) as [r s1].
  cbn in E |- *. subst s1.
  exists ([EAssets assets; EPrint LStarting] ++ n).
  rewrite <- !app_assoc. split; [destruct r; reflexivity|]. cbn. exact Qn.
Qed.
